(** * OpenNero: the logging facility (core/Log.cpp) and SceneObject::hasMesh

    A shallow embedding of [source/core/Log.cpp] (release 2010-01-05) and of
    the inline accessor [SceneObject::hasMesh] of
    [source/render/SceneObject.h] (capture-the-flag branch).

    The two file-level statics of Log.cpp, [sLogConnections] and
    [sFilterList], become fields of an explicit state that every function of
    the namespace threads through.  A call of a member function on a
    connection object (the call through the member pointer [func]) is recorded in the state as well,
    so that "the message is delivered to connection c" is a fact about the
    recorded calls. *)

From stdpp Require Import base list strings.

Local Open Scope string_scope.

(** ** Values *)

(** [const char*]: NULL or a character string. *)
Definition c_str : Type := option string.

(** Where a connection writes.  The classes themselves live in
    LogConnections.h; only what LogSystemInit passes to their constructors
    is kept. *)
Inductive Sink : Type :=
  | FileSink (path : string)
  | StreamSink (stream : string).

(** An [ILogConnection] object: its identity (the address [new] returned),
    the name [getConnectionName()] answers, and its sink. *)
Record ILogConnection : Type := mkConnection {
  conn_addr : nat;
  getConnectionName : string;
  conn_sink : Sink
}.

(** [ILogConnectionPtr], a shared pointer: NULL or a live object. *)
Definition ILogConnectionPtr : Type := option ILogConnection.

(** [operator==] on shared pointers compares the raw addresses. *)
Definition ptr_eqb (p q : ILogConnectionPtr) : bool :=
  match p, q with
  | None, None => true
  | Some a, Some b => Nat.eqb (conn_addr a) (conn_addr b)
  | _, _ => false
  end.

(** The conversion of a shared pointer to bool, as in [if(conn)] and
    [Assert( *itr )]. *)
Definition ptr_bool (p : ILogConnectionPtr) : bool :=
  match p with Some _ => true | None => false end.

(** [LogUtil::MemberLogFunc]: a pointer to one of the four logging members
    of ILogConnection. *)
Inductive MemberLogFunc : Type :=
  | ILogConnection_LogDebug
  | ILogConnection_LogMsg
  | ILogConnection_LogWarning
  | ILogConnection_LogError.

(** One call of member [d_func] on the object [d_conn] with [d_msg]. *)
Record Delivery : Type := mkDelivery {
  d_conn : ILogConnection;
  d_func : MemberLogFunc;
  d_msg : c_str
}.

(** ** State *)

(** The statics of Log.cpp, the allocator and the record of member calls.
    [ILogConnectionVector] and [FilterList] are typedefs of core/Log.h, which
    is not part of the sources at hand: a vector of shared pointers (it is
    iterated, pushed to and cleared, and its cells are dereferenced and
    tested against NULL) and a sequence of strings (the "string-based filter
    list" that [std::find] searches for a [const char*]). *)
Record LogState : Type := mkState {
  sLogConnections : list ILogConnectionPtr;
  sFilterList : list string;
  heap_next : nat;            (* the next address [new] hands out *)
  calls : list Delivery       (* member calls made so far, oldest first *)
}.

Definition set_connections (v : list ILogConnectionPtr) (s : LogState) : LogState :=
  mkState v (sFilterList s) (heap_next s) (calls s).

Definition set_filters (fl : list string) (s : LogState) : LogState :=
  mkState (sLogConnections s) fl (heap_next s) (calls s).

Definition set_heap_next (n : nat) (s : LogState) : LogState :=
  mkState (sLogConnections s) (sFilterList s) n (calls s).

Definition add_calls (ds : list Delivery) (s : LogState) : LogState :=
  mkState (sLogConnections s) (sFilterList s) (heap_next s) (calls s ++ ds).

(** The statics before any call: two empty vectors. *)
Definition initial_state : LogState := mkState [] [] 0 [].

(** ** A state and failure monad for the functions of the namespace *)

Inductive Fault : Type :=
  | AssertionFailed
  | NullDereference.

Inductive Result (A : Type) : Type :=
  | Ok (a : A) (s : LogState)
  | Crash (f : Fault) (s : LogState).
Arguments Ok {A} a s.
Arguments Crash {A} f s.

Definition M (A : Type) : Type := LogState → Result A.

#[global] Instance M_ret : MRet M := λ A a s, Ok a s.
#[global] Instance M_bind : MBind M := λ A B f m s,
  match m s with
  | Ok a s' => f a s'
  | Crash e s' => Crash e s'
  end.

Definition get : M LogState := λ s, Ok s s.
Definition modify (f : LogState → LogState) : M unit := λ s, Ok tt (f s).
Definition crash {A} (e : Fault) : M A := λ s, Crash e s.

(** Modelled from the spec: the [Assert] macro of core/Common.h, which is
    not part of the sources at hand; a false condition stops the program
    ("the per-connection assertion ... fails"). *)
Definition Assert (b : bool) : M unit :=
  if b then mret tt else crash AssertionFailed.

(** Dereferencing a shared pointer (unary star and arrow). *)
Definition deref (p : ILogConnectionPtr) : M ILogConnection :=
  match p with
  | Some c => mret c
  | None => crash NullDereference
  end.

(** The call of member [func] on [c] with [msg]: what the connection does with the message is the
    business of LogConnections.h; here the call is recorded. *)
Definition invoke (c : ILogConnection) (func : MemberLogFunc) (msg : c_str) : M unit :=
  modify (add_calls [mkDelivery c func msg]).

(** ** Algorithms of the C++ library used by Log.cpp *)

(** [std::find(begin, end, value)] over a vector: iterators are indices,
    [end()] is the length. *)
Fixpoint std_find {A B : Type} (eq : A → B → bool) (v : list A) (value : B) : nat :=
  match v with
  | [] => 0
  | x :: rest => if eq x value then 0 else S (std_find eq rest value)
  end.

(** How [std::remove] writes [*result = *first]: by copy assignment (C++03,
    the language of the 2010 release; the source cell keeps its value) or by
    move assignment (C++11 and later; the source shared pointer is left
    NULL). *)
Inductive assign_mode : Type := CopyAssign | MoveAssign.

Definition assign (m : assign_mode) (v : list ILogConnectionPtr) (dst src : nat)
  : list ILogConnectionPtr :=
  match v !! src with
  | None => v
  | Some x =>
      match m with
      | CopyAssign => <[dst := x]> v
      | MoveAssign => <[src := None]> (<[dst := x]> v)
      end
  end.

(** The loop of [std::remove] after the first match: [n] cells are left to
    visit, [first] is the read position and [result] the write position. *)
Fixpoint remove_loop (m : assign_mode) (value : ILogConnectionPtr) (n first result : nat)
    (v : list ILogConnectionPtr) : list ILogConnectionPtr * nat :=
  match n with
  | 0 => (v, result)
  | S n' =>
      match v !! first with
      | None => (v, result)
      | Some x =>
          if ptr_eqb x value
          then remove_loop m value n' (S first) result v
          else remove_loop m value n' (S first) (S result) (assign m v result first)
      end
  end.

(** [std::remove(begin, end, value)]: the vector afterwards and the returned
    iterator (the new logical end). *)
Definition std_remove (m : assign_mode) (v : list ILogConnectionPtr) (value : ILogConnectionPtr)
  : list ILogConnectionPtr * nat :=
  let first := std_find ptr_eqb v value in
  if Nat.eqb first (length v) then (v, first)
  else remove_loop m value (length v - S first) (S first) first v.

(** The cells [std::remove] is asked to keep: those that do not compare
    equal to [value]. *)
Definition kept (value p : ILogConnectionPtr) : Prop := ptr_eqb p value = false.

#[global] Instance kept_dec (value p : ILogConnectionPtr) : Decision (kept value p) :=
  decide (ptr_eqb p value = false).

(** What a cell past the new logical end holds once [std::remove] is done:
    its old value, except that a kept cell was moved from under move
    assignment and is NULL. *)
Definition stale (m : assign_mode) (value p : ILogConnectionPtr) : ILogConnectionPtr :=
  match m with
  | CopyAssign => p
  | MoveAssign => if ptr_eqb p value then p else None
  end.

(** ** namespace OpenNero::Log *)

Module Log.

(** *** Helper utility functions *)
Module LogUtil.

(** The loop of [find] over the cells from the iterator on: the name of
    each cell's object is read, so a NULL cell met before a match is
    dereferenced. *)
Fixpoint find_from (connectionName : string) (v : list ILogConnectionPtr)
  : M ILogConnectionPtr :=
  match v with
  | [] => mret None
  | p :: rest =>
      c ← deref p;
      if String.eqb (getConnectionName c) connectionName
      then mret p
      else find_from connectionName rest
  end.

(** Find a given log connection by its name; NULL if none found. *)
Definition find (connectionName : string) : M ILogConnectionPtr :=
  s ← get; find_from connectionName (sLogConnections s).

(** The test of lines 48-56: a non-NULL message type that [std::find]
    locates in the filter list ([FilterList] holds [std::string]s, which
    compare with a [const char*] by content). *)
Definition filtered (msgType : c_str) (fl : list string) : bool :=
  match msgType with
  | None => false
  | Some t => negb (Nat.eqb (std_find String.eqb fl t) (length fl))
  end.

(** The broadcast loop over [begin, end). *)
Fixpoint broadcast (func : MemberLogFunc) (msg : c_str) (v : list ILogConnectionPtr)
  : M unit :=
  match v with
  | [] => mret tt
  | p :: rest =>
      Assert (ptr_bool p);;
      c ← deref p;
      invoke c func msg;;
      broadcast func msg rest
  end.

(** Output a message to a member method of ILogConnection. *)
Definition OutputToLogFunc (func : MemberLogFunc) (msgType connectionName msg : c_str)
  : M unit :=
  s ← get;
  if filtered msgType (sFilterList s) then mret tt
  else
    match connectionName with
    | None => broadcast func msg (sLogConnections s)
    | Some name =>
        c ← find name;
        if ptr_bool c then (o ← deref c; invoke o func msg) else mret tt
    end.

End LogUtil.

(** Add a connection to the manager. *)
Definition AddLogConnection (conn : ILogConnectionPtr) : M unit :=
  if ptr_bool conn
  then modify (λ s, set_connections (sLogConnections s ++ [conn]) s)
  else mret tt.

(** Remove a connection from the manager: [std::remove] alone, its result
    dropped and no [erase]. *)
Definition RemoveLogConnection (m : assign_mode) (conn : ILogConnectionPtr) : M unit :=
  modify (λ s, set_connections (std_remove m (sLogConnections s) conn).1 s).

Definition LogDebug (type connectionName msg : c_str) : M unit :=
  LogUtil.OutputToLogFunc ILogConnection_LogDebug type connectionName msg.

Definition LogMsg (type connectionName msg : c_str) : M unit :=
  LogUtil.OutputToLogFunc ILogConnection_LogMsg type connectionName msg.

Definition LogWarning (type connectionName msg : c_str) : M unit :=
  LogUtil.OutputToLogFunc ILogConnection_LogWarning type connectionName msg.

Definition LogError (type connectionName msg : c_str) : M unit :=
  LogUtil.OutputToLogFunc ILogConnection_LogError type connectionName msg.

(** [new T(name, sink)] wrapped in a shared pointer: a fresh address, never
    NULL. *)
Definition new_connection (name : string) (sink : Sink) : M ILogConnectionPtr :=
  s ← get;
  modify (set_heap_next (S (heap_next s)));;
  mret (Some (mkConnection (heap_next s) name sink)).

(** Set up the log system by adding a file log and a console log. *)
Definition LogSystemInit : M unit :=
  fileLog ← new_connection "nero_file_log" (FileSink "nero_log.txt");
  stdioLog ← new_connection "console_log" (StreamSink "std::cout");
  AddLogConnection fileLog;;
  AddLogConnection stdioLog.

(** Set the list of filters to ignore. *)
Definition LogSystemSpecifyFilters (flist : list string) : M unit :=
  modify (set_filters flist).

(** Clear all the log connections. *)
Definition LogSystemShutdown : M unit :=
  modify (set_connections []).

End Log.

(** The four logging functions of the namespace, by severity. *)
Inductive Severity : Type := Debug_ | Message_ | Warning_ | Error_.

Definition log_function (sev : Severity) : c_str → c_str → c_str → M unit :=
  match sev with
  | Debug_ => Log.LogDebug
  | Message_ => Log.LogMsg
  | Warning_ => Log.LogWarning
  | Error_ => Log.LogError
  end.

(** The member of ILogConnection each of them hands to OutputToLogFunc. *)
Definition member_of (sev : Severity) : MemberLogFunc :=
  match sev with
  | Debug_ => ILogConnection_LogDebug
  | Message_ => ILogConnection_LogMsg
  | Warning_ => ILogConnection_LogWarning
  | Error_ => ILogConnection_LogError
  end.

(** ** The scripting bindings (namespace OpenNero) *)

(** One [def(name, function, docstring)] of a binder. *)
Record PyDef : Type := def {
  py_name : string;
  py_function : string → M unit;
  py_doc : string
}.

Section scripting.

(** The macros LOG_F_DEBUG, LOG_F_MSG, LOG_F_WARNING and LOG_F_ERROR come
    from core/Log.h, which is not part of the sources at hand, and nothing
    else says what they expand to: they are parameters of the bindings, each
    taking the type literal and the [std::string] of its use in Log.cpp. *)
Variable LOG_F_DEBUG : string → string → M unit.
Variable LOG_F_MSG : string → string → M unit.
Variable LOG_F_WARNING : string → string → M unit.
Variable LOG_F_ERROR : string → string → M unit.

Definition py_log_debug (msg : string) : M unit := LOG_F_DEBUG "python" msg.
Definition py_log_msg (msg : string) : M unit := LOG_F_MSG "python" msg.
Definition py_log_warning (msg : string) : M unit := LOG_F_WARNING "python" msg.
Definition py_log_error (msg : string) : M unit := LOG_F_ERROR "python" msg.

(** PYTHON_BINDER(LogBinder): the definitions it makes, in order. *)
Definition LogBinder : list PyDef :=
  [ def "log_message" py_log_msg "print a message to the log";
    def "log_warn" py_log_warning "print a warning message to the log";
    def "log_debug" py_log_debug "print a debugging message to the log";
    def "log_error" py_log_error "print an error message to the log" ].

(** The function a script reaches under a name. *)
Definition py_lookup (name : string) : option (string → M unit) :=
  py_function <$> List.find (λ d, String.eqb (py_name d) name) LogBinder.

End scripting.

(** ** Clients of the namespace *)

(** One call a client of Log.h can make.  The scripting bindings are not in
    this list: what they call is decided by the macros of core/Log.h. *)
Inductive Call : Type :=
  | CallAdd (conn : ILogConnectionPtr)
  | CallRemove (conn : ILogConnectionPtr)
  | CallLog (sev : Severity) (type connectionName msg : c_str)
  | CallInit
  | CallSpecifyFilters (flist : list string)
  | CallShutdown.

Definition run_call (m : assign_mode) (c : Call) : M unit :=
  match c with
  | CallAdd conn => Log.AddLogConnection conn
  | CallRemove conn => Log.RemoveLogConnection m conn
  | CallLog sev type connectionName msg => log_function sev type connectionName msg
  | CallInit => Log.LogSystemInit
  | CallSpecifyFilters flist => Log.LogSystemSpecifyFilters flist
  | CallShutdown => Log.LogSystemShutdown
  end.

(** A program: calls one after the other; a crash ends it. *)
Fixpoint run_calls (m : assign_mode) (cs : list Call) : M unit :=
  match cs with
  | [] => mret tt
  | c :: rest => run_call m c;; run_calls m rest
  end.

(** Calls that can put a connection into the list. *)
Definition adds_connection (c : Call) : bool :=
  match c with
  | CallAdd conn => ptr_bool conn
  | CallInit => true
  | _ => false
  end.

(** The fault a result ended in, if any. *)
Definition fault_of {A} (r : Result A) : option Fault :=
  match r with Ok _ _ => None | Crash e _ => Some e end.

(** The state a result ends in, returned or faulted. *)
Definition final_state {A} (r : Result A) : LogState :=
  match r with Ok _ s => s | Crash _ s => s end.

(** A result carried to another state, as when the same call runs with a
    different filter list that it never reads. *)
Definition on_state {A} (f : LogState → LogState) (r : Result A) : Result A :=
  match r with Ok a s => Ok a (f s) | Crash e s => Crash e (f s) end.

(** ** SceneObject (render/SceneObject.h) *)

(** A raw pointer to a scene-graph node: NULL or an address. *)
Definition node_ptr : Type := option nat.
Definition NULL : node_ptr := None.

(** [p != q] on raw pointers. *)
Definition ptr_ne (p q : node_ptr) : bool := negb (bool_decide (p = q)).

(** The node members of a SceneObject. *)
Record SceneObject : Type := mkSceneObject {
  mSceneNode : node_ptr;
  mAniSceneNode : node_ptr;
  mTerrSceneNode : node_ptr;
  mParticleSystemNode : node_ptr;
  mTextNode : node_ptr;
  mStartFrame : Z;
  mEndFrame : Z;
  mFootprints : list nat
}.

(** Does this scene object have a mesh? *)
Definition hasMesh (so : SceneObject) : bool := ptr_ne (mTerrSceneNode so) NULL.

(** ** Predicates of the statements *)

(** Every cell of the list holds an object (no NULL shared pointer). *)
Definition all_connected (v : list ILogConnectionPtr) : Prop :=
  Forall (λ p, ptr_bool p = true) v.

(** ** Concrete states and objects used by the examples *)

Definition conn_a : ILogConnection := mkConnection 10 "a" (StreamSink "std::cerr").
Definition conn_b : ILogConnection := mkConnection 11 "b" (FileSink "b.txt").
Definition conn_b' : ILogConnection := mkConnection 12 "b" (FileSink "b2.txt").

Definition state_ab : LogState :=
  mkState [Some conn_a; Some conn_b; Some conn_b'] ["ai"; "render"] 0 [].

Definition conn_c : ILogConnection := mkConnection 13 "c" (StreamSink "std::clog").

Definition state_a : LogState := mkState [Some conn_a] [] 0 [].

(** A list with a NULL cell, as move assignment can leave it. *)
Definition state_null : LogState :=
  mkState [Some conn_a; None; Some conn_b] ["ai"] 0 [].

(** A scene object whose only node is an animated mesh. *)
Definition animated_only : SceneObject :=
  mkSceneObject (Some 7) (Some 7) NULL NULL NULL 0 24 [].

(** * Properties *)

(** Unfolding of the monad's plumbing. *)
Ltac run_monad :=
  cbv [mbind M_bind mret M_ret get modify crash Assert deref invoke ptr_bool].

(** ** Auxiliary facts *)

Local Open Scope nat_scope.
Local Open Scope list_scope.

Lemma add_calls_nil (s : LogState) : add_calls [] s = s.
Proof. destruct s; unfold add_calls; simpl. by rewrite app_nil_r. Qed.

Lemma add_calls_app (ds1 ds2 : list Delivery) (s : LogState) :
  add_calls ds2 (add_calls ds1 s) = add_calls (ds1 ++ ds2) s.
Proof. unfold add_calls; simpl. by rewrite app_assoc. Qed.

Lemma std_find_le {A B} (eq : A → B → bool) (v : list A) (x : B) :
  std_find eq v x ≤ length v.
Proof. induction v as [|y v IH]; simpl; [lia|]. destruct (eq y x); lia. Qed.

(** [std::find] answers [end()] exactly when no cell compares equal. *)
Lemma std_find_end {A B} (eq : A → B → bool) (v : list A) (x : B) :
  std_find eq v x = length v ↔ Forall (λ y, eq y x = false) v.
Proof.
  induction v as [|y v IH]; simpl.
  - split; [constructor | done].
  - destruct (eq y x) eqn:E.
    + split; [lia | intros H; inversion H; congruence].
    + rewrite Forall_cons. split.
      * intros H. split; [done | apply IH; lia].
      * intros [_ H]. f_equal. by apply IH.
Qed.

Lemma no_match_not_elem (ty : string) (fl : list string) :
  Forall (λ y, String.eqb y ty = false) fl ↔ ty ∉ fl.
Proof.
  rewrite Forall_forall. split.
  - intros H Hin. specialize (H ty Hin). by rewrite String.eqb_refl in H.
  - intros H y Hy. apply String.eqb_neq. intros ->. by apply H.
Qed.

(** The filter test holds exactly for a non-NULL type that occurs in the
    list. *)
Lemma filtered_Some (ty : string) (fl : list string) :
  Log.LogUtil.filtered (Some ty) fl = true ↔ ty ∈ fl.
Proof.
  unfold Log.LogUtil.filtered.
  rewrite negb_true_iff, Nat.eqb_neq, std_find_end, no_match_not_elem.
  destruct (decide (ty ∈ fl)); tauto.
Qed.

Lemma filtered_false (type : c_str) (fl : list string) :
  (∀ ty, type = Some ty → ty ∉ fl) → Log.LogUtil.filtered type fl = false.
Proof.
  intros H. destruct type as [ty|]; [|done].
  apply not_true_is_false. rewrite filtered_Some. by apply H.
Qed.

(** The broadcast loop over cells that all hold an object. *)
Lemma broadcast_valid (func : MemberLogFunc) (msg : c_str) (cs : list ILogConnection)
    (s : LogState) :
  Log.LogUtil.broadcast func msg (Some <$> cs) s
  = Ok tt (add_calls ((λ c, mkDelivery c func msg) <$> cs) s).
Proof.
  revert s. induction cs as [|c cs IH]; intros s; simpl.
  - run_monad. by rewrite add_calls_nil.
  - run_monad. rewrite IH. by rewrite add_calls_app.
Qed.

Lemma log_function_unfold (sev : Severity) :
  log_function sev = Log.LogUtil.OutputToLogFunc (member_of sev).
Proof. by destruct sev. Qed.

Lemma connections_set_filters (fl : list string) (s : LogState) :
  sLogConnections (set_filters fl s) = sLogConnections s.
Proof. reflexivity. Qed.

(** Neither loop reads the filter list: run under another list, each gives
    the same result, carried to that list. *)
Lemma broadcast_filters (func : MemberLogFunc) (msg : c_str) (v : list ILogConnectionPtr)
    (fl : list string) (s : LogState) :
  Log.LogUtil.broadcast func msg v (set_filters fl s)
  = on_state (set_filters fl) (Log.LogUtil.broadcast func msg v s).
Proof.
  revert s. induction v as [|[c|] v IH]; intros s; simpl; run_monad; try done.
  change (add_calls ?d (set_filters fl s)) with (set_filters fl (add_calls d s)).
  apply IH.
Qed.

Lemma find_from_filters (name : string) (v : list ILogConnectionPtr)
    (fl : list string) (s : LogState) :
  Log.LogUtil.find_from name v (set_filters fl s)
  = on_state (set_filters fl) (Log.LogUtil.find_from name v s).
Proof.
  induction v as [|[c|] v IH]; simpl; run_monad; try done.
  destruct (String.eqb (getConnectionName c) name); [done | apply IH].
Qed.

(** ** Filtering and fan-out *)

(** C1: a call of LogDebug, LogMsg, LogWarning or LogError with a NULL
    connectionName and a message type that is NULL or absent from the filter
    list calls the severity's member once on every cell of the connection
    list, in list order, and does nothing else ([cs] are the objects the
    cells point to). *)
Theorem broadcast_reaches_every_connection (sev : Severity) (type msg : c_str)
    (cs : list ILogConnection) (s : LogState) :
  (∀ ty, type = Some ty → ty ∉ sFilterList s) →
  sLogConnections s = Some <$> cs →
  log_function sev type None msg s
  = Ok tt (add_calls ((λ c, mkDelivery c (member_of sev) msg) <$> cs) s).
Proof.
  intros Hty Hcs. rewrite log_function_unfold.
  unfold Log.LogUtil.OutputToLogFunc. run_monad.
  rewrite (filtered_false _ _ Hty), Hcs.
  apply broadcast_valid.
Qed.

Lemma broadcast_reaches_every_connection_witness :
  log_function Warning_ (Some "physics") None (Some "hello") state_ab
  = Ok tt (add_calls
             [ mkDelivery conn_a ILogConnection_LogWarning (Some "hello");
               mkDelivery conn_b ILogConnection_LogWarning (Some "hello");
               mkDelivery conn_b' ILogConnection_LogWarning (Some "hello") ]
             state_ab).
Proof.
  apply (broadcast_reaches_every_connection Warning_ (Some "physics") (Some "hello")
           [conn_a; conn_b; conn_b'] state_ab).
  - intros ty [= <-]. apply (bool_decide_unpack _). vm_compute. exact I.
  - reflexivity.
Defined.

(** C2: a call of any of the four logging functions with a non-NULL type that
    occurs in the filter list returns with the state as it was, so no member
    of any connection is called, with or without a connectionName; and a call
    with a NULL type does what it would do under an empty filter list,
    whatever the filter list holds. *)
Theorem filtered_type_reaches_no_connection (sev : Severity) (connectionName msg : c_str)
    (s : LogState) :
  (∀ ty, ty ∈ sFilterList s →
     log_function sev (Some ty) connectionName msg s = Ok tt s) ∧
  (∀ fl, log_function sev None connectionName msg (set_filters fl s)
         = on_state (set_filters fl)
             (log_function sev None connectionName msg (set_filters [] s))).
Proof.
  rewrite log_function_unfold. split.
  - intros ty Hin. unfold Log.LogUtil.OutputToLogFunc. run_monad.
    apply filtered_Some in Hin. by rewrite Hin.
  - intros fl. unfold Log.LogUtil.OutputToLogFunc, Log.LogUtil.find. run_monad.
    cbn [Log.LogUtil.filtered]. rewrite !connections_set_filters.
    destruct connectionName as [name|].
    + rewrite !find_from_filters.
      destruct (Log.LogUtil.find_from name _ s) as [[c|] s'|e s']; reflexivity.
    + rewrite !broadcast_filters.
      destruct (Log.LogUtil.broadcast _ msg _ s) as [[] s'|e s']; reflexivity.
Qed.

Lemma filtered_type_reaches_no_connection_witness :
  log_function Error_ (Some "ai") (Some "a") (Some "hello") state_ab = Ok tt state_ab
  ∧ log_function Error_ (Some "ai") None (Some "hello") state_ab = Ok tt state_ab.
Proof.
  split.
  - apply (proj1 (filtered_type_reaches_no_connection Error_ (Some "a") (Some "hello")
                    state_ab)).
    apply (bool_decide_unpack _). vm_compute. exact I.
  - apply (proj1 (filtered_type_reaches_no_connection Error_ None (Some "hello")
                    state_ab)).
    apply (bool_decide_unpack _). vm_compute. exact I.
Defined.

(** ** Named connections *)

(** [find] stops at the first cell whose object answers the name; the cells
    after it are not looked at. *)
Lemma find_from_first (name : string) (pre : list ILogConnection) (c : ILogConnection)
    (post : list ILogConnectionPtr) (s : LogState) :
  Forall (λ x, getConnectionName x ≠ name) pre →
  getConnectionName c = name →
  Log.LogUtil.find_from name ((Some <$> pre) ++ Some c :: post) s = Ok (Some c) s.
Proof.
  intros Hpre Hc. induction Hpre as [|x pre Hx _ IH]; simpl; run_monad.
  - apply String.eqb_eq in Hc. by rewrite Hc.
  - apply String.eqb_neq in Hx. rewrite Hx. apply IH.
Qed.

Lemma find_from_none (name : string) (cs : list ILogConnection) (s : LogState) :
  Forall (λ x, getConnectionName x ≠ name) cs →
  Log.LogUtil.find_from name (Some <$> cs) s = Ok None s.
Proof.
  intros Hcs. induction Hcs as [|x cs Hx _ IH]; simpl; run_monad; [done|].
  apply String.eqb_neq in Hx. rewrite Hx. apply IH.
Qed.

(** C4: a call of any of the four logging functions with a non-NULL
    connectionName and a type that is not filtered calls the severity's
    member on the first cell of the connection list whose object is named
    connectionName, once, and on no other; when no registered connection has
    that name, nothing is called. *)
Theorem named_call_reaches_first_match (sev : Severity) (type msg : c_str) (name : string)
    (s : LogState) :
  (∀ ty, type = Some ty → ty ∉ sFilterList s) →
  (∀ pre c post,
     sLogConnections s = (Some <$> pre) ++ Some c :: post →
     Forall (λ x, getConnectionName x ≠ name) pre →
     getConnectionName c = name →
     log_function sev type (Some name) msg s
     = Ok tt (add_calls [mkDelivery c (member_of sev) msg] s)) ∧
  (∀ cs,
     sLogConnections s = Some <$> cs →
     Forall (λ x, getConnectionName x ≠ name) cs →
     log_function sev type (Some name) msg s = Ok tt s).
Proof.
  intros Hty. rewrite log_function_unfold.
  unfold Log.LogUtil.OutputToLogFunc, Log.LogUtil.find. run_monad.
  rewrite (filtered_false _ _ Hty). split.
  - intros pre c post -> Hpre Hc. by rewrite find_from_first.
  - intros cs -> Hcs. by rewrite find_from_none.
Qed.

Lemma named_call_reaches_first_match_witness :
  log_function Debug_ None (Some "b") (Some "hello") state_ab
  = Ok tt (add_calls [mkDelivery conn_b ILogConnection_LogDebug (Some "hello")] state_ab)
  ∧ log_function Debug_ None (Some "c") (Some "hello") state_ab = Ok tt state_ab.
Proof.
  split.
  - apply (proj1 (named_call_reaches_first_match Debug_ None (Some "hello") "b" state_ab
                    ltac:(discriminate)) [conn_a] conn_b [Some conn_b']).
    + reflexivity.
    + repeat constructor. discriminate.
    + reflexivity.
  - apply (proj2 (named_call_reaches_first_match Debug_ None (Some "hello") "c" state_ab
                    ltac:(discriminate)) [conn_a; conn_b; conn_b']).
    + reflexivity.
    + repeat constructor; discriminate.
Defined.

(** ** Removing a connection *)

Section std_remove_facts.

Variable m : assign_mode.
Variable value : ILogConnectionPtr.

Lemma assign_length (v : list ILogConnectionPtr) (dst src : nat) :
  length (assign m v dst src) = length v.
Proof.
  unfold assign. destruct (v !! src); [|done].
  destruct m; by rewrite ?length_insert.
Qed.

Lemma remove_loop_length (n first result : nat) (v : list ILogConnectionPtr) :
  length (remove_loop m value n first result v).1 = length v.
Proof.
  revert first result v. induction n as [|n IH]; intros first result v; simpl; [done|].
  destruct (v !! first) as [x|]; [|done].
  destruct (ptr_eqb x value); rewrite IH; [done | apply assign_length].
Qed.

(** [std::remove] never changes the size of the vector it runs over. *)
Lemma std_remove_length (v : list ILogConnectionPtr) :
  length (std_remove m v value).1 = length v.
Proof.
  unfold std_remove. destruct (Nat.eqb _ _); [done | apply remove_loop_length].
Qed.

(** On a vector of one cell the loop has nothing to shift. *)
Lemma std_remove_singleton (p : ILogConnectionPtr) :
  (std_remove m [p] value).1 = [p].
Proof. unfold std_remove. simpl. by destruct (ptr_eqb p value). Qed.

(** One assignment of the loop, seen from both sides of the two
    positions: the cells below [result] gain the moved cell, the cells
    above [first] are as they were. *)
Lemma assign_take_drop (v : list ILogConnectionPtr) (first result : nat)
    (y : ILogConnectionPtr) :
  result < first → v !! first = Some y →
  take (S result) (assign m v result first) = take result v ++ [y] ∧
  drop (S first) (assign m v result first) = drop (S first) v.
Proof.
  intros Hlt Hy. unfold assign. rewrite Hy.
  assert (Hlen : result < length v).
  { apply lookup_lt_Some in Hy. lia. }
  assert (Ht : take (S result) (<[result:=y]> v) = take result v ++ [y]).
  { rewrite (take_S_r _ _ y) by (by apply list_lookup_insert_eq).
    by rewrite take_insert_ge. }
  destruct m.
  - split; [done|]. apply drop_insert_lt. lia.
  - split.
    + rewrite take_insert_ge by lia. done.
    + rewrite !drop_insert_lt by lia. done.
Qed.

(** The loop invariant of [std::remove]: what was kept so far, followed
    by the kept cells of the part still to visit. *)
Lemma remove_loop_survivors (n first result : nat) (v : list ILogConnectionPtr) :
  result < first → first + n = length v →
  (remove_loop m value n first result v).2
    = result + length (filter (kept value) (drop first v)) ∧
  take (remove_loop m value n first result v).2 (remove_loop m value n first result v).1
    = take result v ++ filter (kept value) (drop first v).
Proof.
  revert first result v.
  induction n as [|n IH]; intros first result v Hlt Hlen; simpl.
  - rewrite drop_ge by lia. rewrite filter_nil, app_nil_r. simpl. split; [lia | done].
  - destruct (lookup_lt_is_Some_2 v first) as [y Hy]; [lia|].
    rewrite Hy, (drop_S _ _ _ Hy).
    destruct (ptr_eqb y value) eqn:E.
    + rewrite filter_cons_False by (unfold kept; congruence).
      apply IH; lia.
    + rewrite filter_cons_True by exact E.
      destruct (assign_take_drop v first result y Hlt Hy) as [Ht Hd].
      destruct (IH (S first) (S result) (assign m v result first)) as [H2 H1].
      { lia. }
      { rewrite assign_length. lia. }
      rewrite H1, H2, Ht, Hd. simpl. split; [lia|]. by rewrite <- app_assoc.
Qed.

Lemma std_find_prefix (v : list ILogConnectionPtr) :
  filter (kept value) (take (std_find ptr_eqb v value) v) = take (std_find ptr_eqb v value) v.
Proof.
  induction v as [|y v IH]; simpl; [done|].
  destruct (ptr_eqb y value) eqn:E; simpl; [done|].
  rewrite filter_cons_True by exact E. by rewrite IH.
Qed.

Lemma std_find_hit (v : list ILogConnectionPtr) :
  std_find ptr_eqb v value < length v →
  ∃ y, v !! std_find ptr_eqb v value = Some y ∧ ptr_eqb y value = true.
Proof.
  induction v as [|y v IH]; simpl; [lia|].
  destruct (ptr_eqb y value) eqn:E; simpl.
  - intros _. by exists y.
  - intros H. apply IH. lia.
Qed.

(** What [std::remove] promises: the cells before the returned iterator
    are the cells that differ from [value], in their order. *)
Lemma std_remove_survivors (v : list ILogConnectionPtr) :
  (std_remove m v value).2 = length (filter (kept value) v) ∧
  take (std_remove m v value).2 (std_remove m v value).1 = filter (kept value) v.
Proof.
  unfold std_remove. pose proof (std_find_le ptr_eqb v value) as Hle.
  pose proof (std_find_prefix v) as Hpre.
  destruct (Nat.eqb _ _) eqn:E; simpl.
  - apply Nat.eqb_eq in E. rewrite E, firstn_all in *. by rewrite Hpre.
  - apply Nat.eqb_neq in E.
    destruct (std_find_hit v) as (y & Hy & Hyv); [lia|].
    set (k := std_find ptr_eqb v value) in *.
    destruct (remove_loop_survivors (length v - S k) (S k) k v) as [H2 H1]; [lia | lia |].
    assert (Hv : filter (kept value) v = take k v ++ filter (kept value) (drop (S k) v)).
    { rewrite <- (take_drop_middle v k y Hy) at 1.
      rewrite filter_app, Hpre. f_equal.
      apply filter_cons_False. unfold kept. congruence. }
    rewrite H1, H2, Hv. split; [|done].
    rewrite length_app, length_take_le by lia. done.
Qed.

End std_remove_facts.

(** C3: RemoveLogConnection(conn) returns and leaves the connection list with
    as many cells as before, for every list, every conn and either way
    std::remove assigns; when conn was the only registered connection, the
    list is what it was and a later unfiltered broadcast still calls one
    connection (conn itself). *)
Theorem remove_keeps_length (m : assign_mode) (conn : ILogConnectionPtr) (s : LogState) :
  ∃ s', Log.RemoveLogConnection m conn s = Ok tt s' ∧
    length (sLogConnections s') = length (sLogConnections s) ∧
    (∀ c sev type msg,
       conn = Some c →
       sLogConnections s = [conn] →
       (∀ ty, type = Some ty → ty ∉ sFilterList s) →
       sLogConnections s' = [conn] ∧
       log_function sev type None msg s'
       = Ok tt (add_calls [mkDelivery c (member_of sev) msg] s')).
Proof.
  eexists. split; [reflexivity|]. split.
  - cbn [sLogConnections set_connections]. apply std_remove_length.
  - intros c sev type msg -> Hv Hty.
    assert (Hv' : sLogConnections
                    (set_connections (std_remove m (sLogConnections s) (Some c)).1 s)
                  = Some <$> [c]).
    { cbn [sLogConnections set_connections]. rewrite Hv. apply std_remove_singleton. }
    split; [exact Hv'|].
    rewrite log_function_unfold. unfold Log.LogUtil.OutputToLogFunc. run_monad.
    cbn [sFilterList set_connections]. rewrite (filtered_false _ _ Hty).
    cbn [sLogConnections set_connections] in *. rewrite Hv'.
    apply (broadcast_valid _ _ [c]).
Qed.

Lemma remove_keeps_length_witness :
  ∃ s', Log.RemoveLogConnection MoveAssign (Some conn_a) state_a = Ok tt s' ∧
    length (sLogConnections s') = 1 ∧
    log_function Message_ None None (Some "hello") s'
    = Ok tt (add_calls [mkDelivery conn_a ILogConnection_LogMsg (Some "hello")] s').
Proof.
  destruct (remove_keeps_length MoveAssign (Some conn_a) state_a) as (s' & H1 & H2 & H3).
  exists s'. split; [exact H1|]. split; [exact H2|].
  apply (H3 conn_a Message_ None (Some "hello")); [reflexivity | reflexivity | discriminate].
Defined.

(** With more than one cell the tail keeps stale cells: a copy of the last
    survivor under copy assignment, a NULL under move assignment. *)
Example remove_leaves_duplicate :
  (std_remove CopyAssign [Some conn_a; Some conn_b] (Some conn_a)).1
  = [Some conn_b; Some conn_b].
Proof. reflexivity. Qed.

Example remove_leaves_null :
  (std_remove MoveAssign [Some conn_a; Some conn_b] (Some conn_a)).1
  = [Some conn_b; None].
Proof. reflexivity. Qed.

(** ** The non-NULL invariant of the connection list *)

Lemma all_connected_objects (v : list ILogConnectionPtr) :
  all_connected v → ∃ cs, v = Some <$> cs.
Proof.
  induction 1 as [|[c|] v Hp _ [cs ->]]; [by exists [] | | done].
  by exists (c :: cs).
Qed.

Lemma assign_copy_connected (v : list ILogConnectionPtr) (dst src : nat) :
  all_connected v → all_connected (assign CopyAssign v dst src).
Proof.
  intros Hv. unfold assign. destruct (v !! src) as [x|] eqn:E; [|done].
  apply Forall_insert; [done|].
  by apply (Forall_lookup_1 _ _ _ _ Hv E).
Qed.

Lemma remove_loop_copy_connected (value : ILogConnectionPtr) (n first result : nat)
    (v : list ILogConnectionPtr) :
  all_connected v → all_connected (remove_loop CopyAssign value n first result v).1.
Proof.
  revert first result v. induction n as [|n IH]; intros first result v Hv; simpl; [done|].
  destruct (v !! first) as [x|]; [|done].
  destruct (ptr_eqb x value); apply IH; [done | by apply assign_copy_connected].
Qed.

(** Under copy assignment [std::remove] only ever writes copies of cells of
    the vector, so it cannot bring in a NULL. *)
Lemma std_remove_copy_connected (v : list ILogConnectionPtr) (value : ILogConnectionPtr) :
  all_connected v → all_connected (std_remove CopyAssign v value).1.
Proof.
  intros Hv. unfold std_remove.
  destruct (Nat.eqb _ _); [done | by apply remove_loop_copy_connected].
Qed.

(** [find] over cells that all hold an object: no fault, the state is left
    alone. *)
Lemma find_from_valid (name : string) (cs : list ILogConnection) (s : LogState) :
  ∃ r, Log.LogUtil.find_from name (Some <$> cs) s = Ok r s.
Proof.
  induction cs as [|c cs [r IH]]; simpl; run_monad; [by eexists|].
  destruct (String.eqb _ _); by eexists.
Qed.

(** A logging call in a state whose cells all hold an object returns, and
    changes nothing but the record of calls. *)
Lemma log_function_valid (sev : Severity) (type connectionName msg : c_str) (s : LogState) :
  all_connected (sLogConnections s) →
  ∃ ds, log_function sev type connectionName msg s = Ok tt (add_calls ds s).
Proof.
  intros [cs Hcs]%all_connected_objects. rewrite log_function_unfold.
  unfold Log.LogUtil.OutputToLogFunc, Log.LogUtil.find. run_monad.
  destruct (Log.LogUtil.filtered _ _).
  { exists []. by rewrite add_calls_nil. }
  destruct connectionName as [name|]; cbv beta; rewrite Hcs.
  - destruct (find_from_valid name cs s) as [[c|] ->].
    + by eexists.
    + exists []. by rewrite add_calls_nil.
  - rewrite broadcast_valid. by eexists.
Qed.

Lemma run_call_connected (c : Call) (s : LogState) :
  all_connected (sLogConnections s) →
  ∃ s', run_call CopyAssign c s = Ok tt s' ∧ all_connected (sLogConnections s').
Proof.
  intros Hs. destruct c as [conn|conn|sev type cn msg| |flist|]; simpl.
  - destruct conn as [c|]; (eexists; split; [reflexivity|]); [|done].
    apply Forall_app. split; [done | by repeat constructor].
  - eexists; split; [reflexivity|]. by apply std_remove_copy_connected.
  - destruct (log_function_valid sev type cn msg s Hs) as [ds ->]. by eexists.
  - eexists; split; [reflexivity|]. cbn.
    rewrite <- app_assoc. apply Forall_app. split; [done | by repeat constructor].
  - by eexists.
  - eexists; split; [reflexivity|]. constructor.
Qed.

Lemma run_calls_connected (cs : list Call) (s : LogState) :
  all_connected (sLogConnections s) →
  ∃ s', run_calls CopyAssign cs s = Ok tt s' ∧ all_connected (sLogConnections s').
Proof.
  revert s. induction cs as [|c cs IH]; intros s Hs; simpl.
  - by exists s.
  - destruct (run_call_connected c s Hs) as (s1 & E1 & H1).
    destruct (IH s1 H1) as (s2 & E2 & H2).
    exists s2. split; [|done]. run_monad. by rewrite E1.
Qed.

(** X14: with std::remove assigning by copy, in every state a program of
    calls reaches from the initial statics every cell of the connection list
    is non-NULL, and the program itself never faults; AddLogConnection
    ignores a NULL pointer and appends any other, LogSystemInit appends two
    objects, and so the assertion of the broadcast loop (or any other fault)
    cannot occur in a later broadcast. *)
Theorem connection_list_never_holds_null (cs : list Call) :
  (∀ s, Log.AddLogConnection None s = Ok tt s) ∧
  (∀ c s, Log.AddLogConnection (Some c) s
          = Ok tt (set_connections (sLogConnections s ++ [Some c]) s)) ∧
  ∃ s, run_calls CopyAssign cs initial_state = Ok tt s ∧
       all_connected (sLogConnections s) ∧
       ∀ sev type msg, fault_of (log_function sev type None msg s) = None.
Proof.
  split; [done|]. split; [done|].
  destruct (run_calls_connected cs initial_state) as (s & E & Hs); [constructor|].
  exists s. split; [done|]. split; [done|].
  intros sev type msg.
  by destruct (log_function_valid sev type None msg s Hs) as [ds ->].
Qed.

(** The same does not survive move assignment: the cell a survivor is moved
    out of is left NULL, and the next broadcast trips over it. *)
Example move_assignment_leaves_null_cell :
  fault_of (run_calls MoveAssign
              [ CallAdd (Some conn_a); CallAdd (Some conn_b); CallRemove (Some conn_a);
                CallLog Message_ None None (Some "hello") ]
              initial_state)
  = Some AssertionFailed.
Proof. reflexivity. Qed.

(** C9: the connection list does not stay free of NULL cells, and the
    assertion of the broadcast loop can fail.  With std::remove assigning by
    move, the program AddLogConnection(a); AddLogConnection(b);
    RemoveLogConnection(a) runs without fault from the initial statics and
    ends with the list [b; NULL]; a broadcast made then calls b and fails
    the assertion on the second cell.  RemoveLogConnection, which calls
    std::remove and never erases, is what breaks the invariant that
    AddLogConnection guards and the loop asserts. *)
Theorem remove_leaves_null_cell_and_assertion_fails :
  ∃ s, run_calls MoveAssign
         [ CallAdd (Some conn_a); CallAdd (Some conn_b); CallRemove (Some conn_a) ]
         initial_state = Ok tt s ∧
       sLogConnections s = [Some conn_b; None] ∧
       ¬ all_connected (sLogConnections s) ∧
       ∀ sev type msg,
         log_function sev type None msg s
         = Crash AssertionFailed (add_calls [mkDelivery conn_b (member_of sev) msg] s).
Proof.
  eexists. split; [reflexivity|]. split; [reflexivity|]. split.
  - cbn. intros H. apply Forall_cons in H as [_ H]. by apply Forall_cons in H as [H _].
  - intros sev type msg. rewrite log_function_unfold.
    unfold Log.LogUtil.OutputToLogFunc. run_monad.
    cbn [sFilterList]. by destruct type.
Qed.

(** ** Start-up, filters and shutdown *)

(** C5: LogSystemInit appends exactly two connections to the list it finds,
    in this order: a file connection named "nero_file_log" on nero_log.txt,
    then a stream connection named "console_log" on std::cout; nothing that
    was registered before is dropped, and filters and recorded calls are
    untouched. *)
Theorem init_appends_file_then_console (s : LogState) :
  Log.LogSystemInit s
  = Ok tt (mkState
             (sLogConnections s
              ++ [ Some (mkConnection (heap_next s) "nero_file_log" (FileSink "nero_log.txt"));
                   Some (mkConnection (S (heap_next s)) "console_log"
                           (StreamSink "std::cout")) ])
             (sFilterList s) (S (S (heap_next s))) (calls s)).
Proof.
  unfold Log.LogSystemInit, Log.new_connection, Log.AddLogConnection. run_monad.
  unfold set_connections, set_heap_next. simpl. by rewrite <- app_assoc.
Qed.

(** C7: LogSystemSpecifyFilters(flist) makes flist the filter list whatever
    the list was before, and leaves the connection list (and the recorded
    calls) alone; afterwards a message type is filtered exactly when it is
    non-NULL and occurs in flist, and every logging call runs as it would had
    the old list been any other. *)
Theorem specify_filters_replaces_list (flist : list string) (s : LogState) :
  ∃ s', Log.LogSystemSpecifyFilters flist s = Ok tt s' ∧
    sFilterList s' = flist ∧
    sLogConnections s' = sLogConnections s ∧
    calls s' = calls s ∧
    (∀ type, Log.LogUtil.filtered type (sFilterList s') = true
             ↔ ∃ ty, type = Some ty ∧ ty ∈ flist) ∧
    (∀ old, Log.LogSystemSpecifyFilters flist (set_filters old s) = Ok tt s') ∧
    (∀ ty sev connectionName msg,
       ty ∈ flist → log_function sev (Some ty) connectionName msg s' = Ok tt s').
Proof.
  exists (set_filters flist s). repeat split; try done.
  - destruct type as [ty|]; [|done]. intros H%filtered_Some. by exists ty.
  - intros (ty & -> & Hin). by apply filtered_Some.
  - intros ty sev cn msg Hin. rewrite log_function_unfold.
    unfold Log.LogUtil.OutputToLogFunc. run_monad.
    apply filtered_Some in Hin. cbn [sFilterList set_filters]. by rewrite Hin.
Qed.

Lemma specify_filters_replaces_list_witness :
  ∃ s', Log.LogSystemSpecifyFilters ["python"] state_ab = Ok tt s' ∧
    sFilterList s' = ["python"] ∧
    log_function Debug_ (Some "python") None (Some "hello") s' = Ok tt s'.
Proof.
  destruct (specify_filters_replaces_list ["python"] state_ab)
    as (s' & H1 & H2 & _ & _ & _ & _ & H3).
  exists s'. split; [exact H1|]. split; [exact H2|].
  apply H3. apply (bool_decide_unpack _). vm_compute. exact I.
Defined.

(** A call that does not add a connection, made while the list is empty,
    returns, leaves the list empty and calls no connection. *)
Lemma quiet_call (m : assign_mode) (c : Call) (s : LogState) :
  sLogConnections s = [] →
  adds_connection c = false →
  ∃ s', run_call m c s = Ok tt s' ∧ sLogConnections s' = [] ∧ calls s' = calls s.
Proof.
  intros Hs Hc. destruct c as [[c|]|conn|sev type cn msg| |flist|]; try done; simpl.
  - by exists s.
  - eexists. split; [reflexivity|]. cbn [sLogConnections set_connections calls].
    by rewrite Hs.
  - exists s. split; [|done]. rewrite log_function_unfold.
    unfold Log.LogUtil.OutputToLogFunc, Log.LogUtil.find. run_monad.
    destruct (Log.LogUtil.filtered _ _); [done|].
    destruct cn; cbv beta; by rewrite Hs.
  - by eexists.
  - by eexists.
Qed.

(** C8: LogSystemShutdown returns with the connection list empty and the
    filter list (and the recorded calls) as they were; from then on, any
    sequence of calls none of which adds a connection (logging calls of any
    kind among them) returns with the list still empty and without a single
    call on a connection. *)
Theorem shutdown_silences_logging (m : assign_mode) (s : LogState) :
  ∃ s0, Log.LogSystemShutdown s = Ok tt s0 ∧
    sLogConnections s0 = [] ∧
    sFilterList s0 = sFilterList s ∧
    calls s0 = calls s ∧
    ∀ cs, forallb (λ c, negb (adds_connection c)) cs = true →
      ∃ s', run_calls m cs s0 = Ok tt s' ∧
            sLogConnections s' = [] ∧ calls s' = calls s.
Proof.
  exists (set_connections [] s). repeat split.
  generalize (set_connections [] s), (eq_refl : sLogConnections (set_connections [] s) = []),
    (eq_refl : calls (set_connections [] s) = calls s).
  intros s0 Hs0 Hc0 cs. revert s0 Hs0 Hc0.
  induction cs as [|c cs IH]; intros s0 Hs0 Hc0 Hcs; simpl in *.
  - by exists s0.
  - apply andb_true_iff in Hcs as [Hc%negb_true_iff Hcs].
    destruct (quiet_call m c s0 Hs0 Hc) as (s1 & E1 & Hs1 & Hc1).
    destruct (IH s1 Hs1 (eq_trans Hc1 Hc0) Hcs) as (s2 & E2 & Hs2 & Hc2).
    exists s2. split; [|done]. run_monad. by rewrite E1.
Qed.

Lemma shutdown_silences_logging_witness :
  ∃ s', run_calls CopyAssign
          [ CallShutdown;
            CallLog Error_ None None (Some "hello");
            CallRemove (Some conn_a);
            CallAdd None;
            CallLog Message_ (Some "physics") (Some "a") (Some "hello") ]
          state_ab = Ok tt s'
        ∧ sLogConnections s' = [] ∧ calls s' = [].
Proof.
  destruct (shutdown_silences_logging CopyAssign state_ab) as (s0 & E0 & _ & _ & _ & H).
  destruct (H [ CallLog Error_ None None (Some "hello");
                CallRemove (Some conn_a);
                CallAdd None;
                CallLog Message_ (Some "physics") (Some "a") (Some "hello") ]
              eq_refl) as (s' & E & Hs & Hc).
  exists s'. split; [|by split].
  cbn [run_calls run_call]. run_monad. rewrite E0. exact E.
Defined.

(** ** The scripting bindings *)

(** What Log.cpp fixes of the bindings, whatever the LOG_F_ macros expand
    to: LogBinder defines the four names log_message, log_warn, log_debug and
    log_error and no other, and each is bound to the function that hands the
    type "python" and its argument to the macro of its severity. *)
Lemma script_bindings_names (D Ms W E : string → string → M unit) :
  py_name <$> LogBinder D Ms W E = ["log_message"; "log_warn"; "log_debug"; "log_error"] ∧
  (∀ name, name ∉ ["log_message"; "log_warn"; "log_debug"; "log_error"] →
           py_lookup D Ms W E name = None) ∧
  (∀ msg, (py_lookup D Ms W E "log_message" ≫= λ f, Some (f msg)) = Some (Ms "python" msg)) ∧
  (∀ msg, (py_lookup D Ms W E "log_warn" ≫= λ f, Some (f msg)) = Some (W "python" msg)) ∧
  (∀ msg, (py_lookup D Ms W E "log_debug" ≫= λ f, Some (f msg)) = Some (D "python" msg)) ∧
  (∀ msg, (py_lookup D Ms W E "log_error" ≫= λ f, Some (f msg)) = Some (E "python" msg)).
Proof.
  split; [reflexivity|]. split; [|by repeat split].
  intros name Hname. unfold py_lookup, LogBinder. cbn [List.find py_name].
  repeat (apply not_elem_of_cons in Hname as [Hne%String.eqb_neq Hname];
          rewrite String.eqb_sym, Hne; clear Hne).
  reflexivity.
Qed.

(** ** SceneObject *)

(** C10: hasMesh answers true exactly when mTerrSceneNode is not NULL; the
    answer depends on no other member, so an object whose animated mesh node
    is set and whose terrain node is NULL answers false. *)
Theorem hasMesh_reads_terrain_node_only (so : SceneObject) :
  (hasMesh so = true ↔ mTerrSceneNode so ≠ NULL) ∧
  (∀ so', mTerrSceneNode so' = mTerrSceneNode so → hasMesh so' = hasMesh so) ∧
  (∀ ani, mAniSceneNode so = Some ani → mTerrSceneNode so = NULL → hasMesh so = false).
Proof.
  unfold hasMesh, ptr_ne. split; [|split].
  - rewrite negb_true_iff, bool_decide_eq_false. done.
  - by intros so' ->.
  - intros ani _ ->. done.
Qed.

Lemma hasMesh_reads_terrain_node_only_witness : hasMesh animated_only = false.
Proof.
  apply (proj2 (proj2 (hasMesh_reads_terrain_node_only animated_only)) 7);
    reflexivity.
Defined.

(** * Further properties of the logging facility *)

(** ** The layout of the list after std::remove *)

Section std_remove_layout.

Variable m : assign_mode.
Variable value : ILogConnectionPtr.

(** A cell that compares equal to [value] is never written. *)
Lemma stale_equal (p : ILogConnectionPtr) : ptr_eqb p value = true → stale m value p = p.
Proof. intros H. unfold stale. destruct m; [done | by rewrite H]. Qed.

(** The vector as the loop sees it when it reads position [first]: the
    cells below are what they are, the cells from [first] on will be stale
    once visited.  Skipping an equal cell changes nothing of that view. *)
Lemma view_skip (v : list ILogConnectionPtr) (first : nat) (y : ILogConnectionPtr) :
  v !! first = Some y → ptr_eqb y value = true →
  take (S first) v ++ (stale m value <$> drop (S first) v)
  = take first v ++ (stale m value <$> drop first v).
Proof.
  intros Hy E. rewrite (take_S_r _ _ _ Hy), (drop_S _ _ _ Hy), fmap_cons, (stale_equal _ E).
  by rewrite <- app_assoc.
Qed.

(** Keeping a cell writes it at [result] and leaves the rest of the view. *)
Lemma view_assign (v : list ILogConnectionPtr) (first result : nat) (y : ILogConnectionPtr) :
  result < first → v !! first = Some y → ptr_eqb y value = false →
  take (S first) (assign m v result first) ++ (stale m value <$> drop (S first) v)
  = <[result := y]> (take first v ++ (stale m value <$> drop first v)).
Proof.
  intros Hlt Hy E.
  assert (Hlen : first < length v) by (by apply lookup_lt_Some in Hy).
  assert (Htl : length (take first v) = first) by (rewrite length_take; lia).
  rewrite (drop_S _ _ _ Hy), fmap_cons.
  rewrite (insert_app_l _ _ result) by lia.
  unfold assign, stale at 2. rewrite Hy. destruct m.
  - rewrite take_insert_lt by lia. rewrite (take_S_r _ _ _ Hy).
    rewrite (insert_app_l _ _ result) by lia. by rewrite <- app_assoc.
  - rewrite E. rewrite !take_insert_lt by lia. rewrite (take_S_r _ _ _ Hy).
    rewrite (insert_app_l _ _ result) by lia.
    rewrite insert_app_r_alt by (rewrite length_insert; lia).
    rewrite length_insert, Htl, Nat.sub_diag. simpl. by rewrite <- app_assoc.
Qed.

(** The loop invariant in full: kept cells in front, then whatever the view
    holds from the new end on. *)
Lemma remove_loop_layout (n first result : nat) (v : list ILogConnectionPtr) :
  result < first → first + n = length v →
  (remove_loop m value n first result v).1
  = take result v ++ filter (kept value) (drop first v)
    ++ drop (result + length (filter (kept value) (drop first v)))
         (take first v ++ (stale m value <$> drop first v)).
Proof.
  revert first result v.
  induction n as [|n IH]; intros first result v Hlt Hlen; simpl.
  - rewrite (drop_ge v first) by lia. rewrite filter_nil. simpl.
    rewrite Nat.add_0_r, app_nil_r, (take_ge v first) by lia. by rewrite take_drop.
  - destruct (lookup_lt_is_Some_2 v first) as [y Hy]; [lia|].
    rewrite Hy. destruct (ptr_eqb y value) eqn:E.
    + assert (HF : filter (kept value) (drop first v)
                   = filter (kept value) (drop (S first) v)).
      { rewrite (drop_S _ _ _ Hy).
        apply filter_cons_False. unfold kept. congruence. }
      rewrite IH by lia. by rewrite (view_skip _ _ _ Hy E), HF.
    + assert (HF : filter (kept value) (drop first v)
                   = y :: filter (kept value) (drop (S first) v)).
      { rewrite (drop_S _ _ _ Hy). by apply filter_cons_True. }
      destruct (assign_take_drop m v first result y Hlt Hy) as [Ht Hd].
      rewrite IH by (rewrite ?assign_length; lia).
      rewrite Ht, Hd, (view_assign _ _ _ _ Hlt Hy E), HF.
      rewrite drop_insert_lt by lia.
      rewrite <- app_assoc. simpl. by rewrite Nat.add_succ_r.
Qed.

(** The vector [std::remove] leaves: the kept cells in their order, then the
    stale cells from the new logical end on. *)
Lemma std_remove_layout (v : list ILogConnectionPtr) :
  (std_remove m v value).1
  = filter (kept value) v
    ++ (stale m value <$> drop (length (filter (kept value) v)) v).
Proof.
  unfold std_remove. pose proof (std_find_le ptr_eqb v value) as Hle.
  pose proof (std_find_prefix value v) as Hpre.
  destruct (Nat.eqb _ _) eqn:E; simpl.
  - apply Nat.eqb_eq in E. rewrite E, firstn_all in Hpre.
    rewrite Hpre, drop_all. simpl. by rewrite app_nil_r.
  - apply Nat.eqb_neq in E.
    destruct (std_find_hit value v) as (y & Hy & Hyv); [lia|].
    set (k := std_find ptr_eqb v value) in *.
    assert (Hv : filter (kept value) v = take k v ++ filter (kept value) (drop (S k) v)).
    { rewrite <- (take_drop_middle v k y Hy) at 1.
      rewrite filter_app, Hpre. f_equal.
      apply filter_cons_False. unfold kept. congruence. }
    rewrite remove_loop_layout by lia.
    rewrite (view_skip _ _ _ Hy Hyv), Hv, <- app_assoc. do 2 f_equal.
    rewrite length_app, length_take_le by lia.
    rewrite drop_app_ge by (rewrite length_take; lia).
    rewrite length_take_le by lia.
    rewrite <- fmap_drop, drop_drop. do 2 f_equal. lia.
Qed.

End std_remove_layout.

(** ** What RemoveLogConnection leaves behind *)

Lemma filter_kept_all (value : ILogConnectionPtr) (v : list ILogConnectionPtr) :
  Forall (λ p, ptr_eqb p value = false) v → filter (kept value) v = v.
Proof.
  induction 1 as [|p v Hp _ IH]; [done|].
  rewrite filter_cons_True by exact Hp. by rewrite IH.
Qed.

(** X1: RemoveLogConnection(conn) leaves the whole state as it was when no
    cell of the connection list compares equal to conn (a connection that was
    never registered, or NULL while every cell holds an object). *)
Theorem remove_unregistered_changes_nothing (m : assign_mode) (conn : ILogConnectionPtr)
    (s : LogState) :
  Forall (λ p, ptr_eqb p conn = false) (sLogConnections s) →
  Log.RemoveLogConnection m conn s = Ok tt s.
Proof.
  intros H. apply std_find_end in H.
  unfold Log.RemoveLogConnection, modify, std_remove.
  rewrite H, Nat.eqb_refl. by destruct s.
Qed.

Lemma remove_unregistered_changes_nothing_witness :
  Log.RemoveLogConnection MoveAssign None state_ab = Ok tt state_ab.
Proof.
  apply (remove_unregistered_changes_nothing MoveAssign None state_ab).
  repeat constructor.
Defined.

(** X2: after RemoveLogConnection(conn) the connection list holds the cells
    that differ from conn, in their order, followed by as many stale cells as
    cells were equal to conn: the old cells of those positions, or NULL
    where a kept cell was moved from; filters and recorded calls are
    untouched. *)
Theorem remove_compacts_and_leaves_stale_tail (m : assign_mode) (conn : ILogConnectionPtr)
    (s : LogState) :
  ∃ s', Log.RemoveLogConnection m conn s = Ok tt s' ∧
    sLogConnections s'
    = filter (kept conn) (sLogConnections s)
      ++ (stale m conn <$>
            drop (length (filter (kept conn) (sLogConnections s))) (sLogConnections s)) ∧
    sFilterList s' = sFilterList s ∧
    calls s' = calls s.
Proof.
  eexists. split; [reflexivity|]. split; [|done].
  cbn [sLogConnections set_connections]. apply std_remove_layout.
Qed.

(** X3: a connection just added that was not registered before is not taken
    out again by RemoveLogConnection: AddLogConnection(c) followed by
    RemoveLogConnection(c) ends in the state AddLogConnection(c) alone
    gives. *)
Theorem add_then_remove_still_registered (m : assign_mode) (c : ILogConnection)
    (s : LogState) :
  Forall (λ p, ptr_eqb p (Some c) = false) (sLogConnections s) →
  (Log.AddLogConnection (Some c);; Log.RemoveLogConnection m (Some c)) s
  = Log.AddLogConnection (Some c) s.
Proof.
  intros H. unfold Log.AddLogConnection, Log.RemoveLogConnection. run_monad.
  unfold set_connections. cbn [sLogConnections sFilterList heap_next calls].
  do 2 f_equal. rewrite std_remove_layout, filter_app.
  rewrite (filter_kept_all _ _ H).
  rewrite filter_cons_False by (unfold kept; simpl; rewrite Nat.eqb_refl; congruence).
  rewrite filter_nil, app_nil_r, drop_app_length. simpl.
  rewrite stale_equal by (simpl; apply Nat.eqb_refl). done.
Qed.

Lemma add_then_remove_still_registered_witness :
  (Log.AddLogConnection (Some conn_c);; Log.RemoveLogConnection CopyAssign (Some conn_c))
    state_ab
  = Log.AddLogConnection (Some conn_c) state_ab.
Proof.
  apply (add_then_remove_still_registered CopyAssign conn_c state_ab).
  repeat constructor.
Defined.

(** X4: RemoveLogConnection(conn) never takes conn out of the last cell: when
    the list ended with a cell equal to conn, it still ends with that cell. *)
Theorem remove_never_clears_last_cell (m : assign_mode) (conn p : ILogConnectionPtr)
    (v0 : list ILogConnectionPtr) (s : LogState) :
  sLogConnections s = v0 ++ [p] →
  ptr_eqb p conn = true →
  ∃ s' v1, Log.RemoveLogConnection m conn s = Ok tt s' ∧
           sLogConnections s' = v1 ++ [p] ∧ length v1 = length v0.
Proof.
  intros Hv Hp.
  set (k := length (filter (kept conn) v0)).
  assert (Hk : k ≤ length v0) by apply length_filter.
  exists (set_connections (std_remove m (sLogConnections s) conn).1 s),
    (filter (kept conn) v0 ++ (stale m conn <$> drop k v0)).
  split; [reflexivity|]. cbn [sLogConnections set_connections]. split.
  - rewrite std_remove_layout, Hv, filter_app.
    rewrite (filter_cons_False _ p) by (unfold kept; congruence).
    rewrite filter_nil, app_nil_r. fold k.
    rewrite drop_app_le by done. rewrite fmap_app. simpl.
    rewrite (stale_equal _ _ _ Hp). by rewrite <- app_assoc.
  - rewrite length_app, length_fmap, length_drop. fold k. lia.
Qed.

Lemma remove_never_clears_last_cell_witness :
  ∃ s' v1, Log.RemoveLogConnection MoveAssign (Some conn_b') state_ab = Ok tt s' ∧
           sLogConnections s' = v1 ++ [Some conn_b'] ∧ length v1 = 2.
Proof.
  apply (remove_never_clears_last_cell MoveAssign (Some conn_b') (Some conn_b')
           [Some conn_a; Some conn_b] state_ab); reflexivity.
Defined.

(** ** Stale cells and the next broadcast *)

Lemma stale_copy (value : ILogConnectionPtr) (v : list ILogConnectionPtr) :
  stale CopyAssign value <$> v = v.
Proof. induction v as [|p v IH]; [done|]. rewrite fmap_cons. by rewrite IH. Qed.

Lemma filter_kept_objects (conn : ILogConnectionPtr) (cs : list ILogConnection) :
  filter (kept conn) (Some <$> cs) = Some <$> filter (λ c, kept conn (Some c)) cs.
Proof.
  induction cs as [|c cs IH]; [done|]. rewrite fmap_cons.
  destruct (decide (kept conn (Some c))) as [Hc|Hc].
  - rewrite !filter_cons_True by done. rewrite fmap_cons. f_equal. exact IH.
  - rewrite !filter_cons_False by done. exact IH.
Qed.

(** X5: with std::remove assigning by copy, an unfiltered broadcast right
    after RemoveLogConnection(conn) calls the connections that differ from
    conn, in their order, and then the connections of the stale cells behind
    them, conn itself included where it sat there: as many calls as before
    the removal. *)
Theorem broadcast_after_copy_remove (sev : Severity) (type msg : c_str)
    (conn : ILogConnectionPtr) (cs : list ILogConnection) (s : LogState) :
  (∀ ty, type = Some ty → ty ∉ sFilterList s) →
  sLogConnections s = Some <$> cs →
  ∃ s' ds,
    Log.RemoveLogConnection CopyAssign conn s = Ok tt s' ∧
    (Log.RemoveLogConnection CopyAssign conn;; log_function sev type None msg) s
    = Ok tt (add_calls ds s') ∧
    d_conn <$> ds
    = filter (λ c, kept conn (Some c)) cs
      ++ drop (length (filter (λ c, kept conn (Some c)) cs)) cs ∧
    Forall (λ d, d_func d = member_of sev ∧ d_msg d = msg) ds.
Proof.
  intros Hty Hcs.
  set (cs' := filter (λ c, kept conn (Some c)) cs
              ++ drop (length (filter (λ c, kept conn (Some c)) cs)) cs).
  assert (Hv : (std_remove CopyAssign (sLogConnections s) conn).1 = Some <$> cs').
  { rewrite std_remove_layout, stale_copy, Hcs, filter_kept_objects, length_fmap.
    unfold cs'. by rewrite (fmap_app Some), fmap_drop. }
  exists (set_connections (Some <$> cs') s),
    ((λ c, mkDelivery c (member_of sev) msg) <$> cs').
  unfold Log.RemoveLogConnection. run_monad. rewrite Hv.
  split; [done|]. split; [|split].
  - rewrite log_function_unfold. unfold Log.LogUtil.OutputToLogFunc. run_monad.
    cbn [sFilterList sLogConnections set_connections].
    rewrite (filtered_false _ _ Hty). apply broadcast_valid.
  - rewrite <- list_fmap_compose. apply list_fmap_id.
  - apply Forall_fmap, Forall_true. done.
Qed.

Lemma broadcast_after_copy_remove_witness :
  ∃ s' ds,
    (Log.RemoveLogConnection CopyAssign (Some conn_a);;
     log_function Message_ None None (Some "hello")) state_ab
    = Ok tt (add_calls ds s') ∧
    d_conn <$> ds = [conn_b; conn_b'; conn_b'].
Proof.
  destruct (broadcast_after_copy_remove Message_ None (Some "hello") (Some conn_a)
              [conn_a; conn_b; conn_b'] state_ab)
    as (s' & ds & _ & H2 & H3 & _); [discriminate | reflexivity |].
  exists s', ds. split; [exact H2|]. rewrite H3. reflexivity.
Defined.

(** The broadcast loop trips over the first NULL cell it meets. *)
Lemma broadcast_null (func : MemberLogFunc) (msg : c_str) (v : list ILogConnectionPtr)
    (s : LogState) :
  None ∈ v → ∃ s', Log.LogUtil.broadcast func msg v s = Crash AssertionFailed s'.
Proof.
  revert s. induction v as [|[c|] v IH]; intros s Hin; simpl; run_monad.
  - by apply elem_of_nil in Hin.
  - apply elem_of_cons in Hin as [Hin|Hin]; [done|].
    apply (IH (add_calls [mkDelivery c func msg] s) Hin).
  - by eexists.
Qed.

(** When a cell equal to [value] comes before a kept cell, some kept cell
    sits at or behind the new logical end. *)
Lemma kept_cell_past_end (value p q : ILogConnectionPtr) (v : list ILogConnectionPtr)
    (i j : nat) :
  v !! i = Some p → ptr_eqb p value = true →
  v !! j = Some q → ptr_eqb q value = false →
  i < j →
  ∃ q', q' ∈ drop (length (filter (kept value) v)) v ∧ kept value q'.
Proof.
  intros Hi Hp Hj Hq Hij.
  set (k := length (filter (kept value) v)).
  destruct (decide (Exists (kept value) (drop k v))) as [Hex|Hno].
  { apply Exists_exists in Hex as (q' & Hin & Hk). by exists q'. }
  exfalso. apply not_Exists_Forall in Hno; [|apply _].
  assert (Hjk : j < k).
  { destruct (decide (j < k)) as [|Hge]; [done|]. exfalso.
    assert (Hd : drop k v !! (j - k) = Some q).
    { rewrite lookup_drop. replace (k + (j - k)) with j by lia. done. }
    apply (Forall_lookup_1 _ _ _ _ Hno) in Hd. by apply Hd. }
  assert (Hnone : filter (kept value) (drop k v) = []).
  { clear -Hno. induction Hno as [|x l Hx _ IH]; [done|].
    by rewrite filter_cons_False. }
  assert (Hsplit : k = length (filter (kept value) (take k v))).
  { unfold k at 1. rewrite <- (take_drop k v) at 1.
    by rewrite filter_app, Hnone, app_nil_r. }
  assert (Hin : p ∈ take k v).
  { apply elem_of_take. exists i. split; [done | lia]. }
  pose proof (length_filter_lt (kept value) (take k v) p Hin) as Hlt.
  rewrite length_take in Hlt.
  assert (¬ kept value p) by (unfold kept; congruence).
  specialize (Hlt H). lia.
Qed.

(** X6: with std::remove assigning by move, RemoveLogConnection(conn) of a
    registered connection that has another connection registered behind it
    leaves a NULL cell, and the next unfiltered broadcast fails the assertion
    of the broadcast loop. *)
Theorem broadcast_after_move_remove_fails (sev : Severity) (type msg : c_str)
    (conn : ILogConnectionPtr) (cs : list ILogConnection) (i j : nat)
    (a b : ILogConnection) (s : LogState) :
  (∀ ty, type = Some ty → ty ∉ sFilterList s) →
  sLogConnections s = Some <$> cs →
  cs !! i = Some a → ptr_eqb (Some a) conn = true →
  cs !! j = Some b → ptr_eqb (Some b) conn = false →
  i < j →
  ∃ s', Log.RemoveLogConnection MoveAssign conn s = Ok tt s' ∧
        None ∈ sLogConnections s' ∧
        fault_of (log_function sev type None msg s') = Some AssertionFailed.
Proof.
  intros Hty Hcs Hi Ha Hj Hb Hij.
  eexists. split; [reflexivity|].
  cbn [sLogConnections set_connections].
  assert (Hnull : None ∈ (std_remove MoveAssign (sLogConnections s) conn).1).
  { rewrite std_remove_layout, Hcs.
    destruct (kept_cell_past_end conn (Some a) (Some b) (Some <$> cs) i j)
      as (q & Hin & Hq); try done.
    - by rewrite list_lookup_fmap, Hi.
    - by rewrite list_lookup_fmap, Hj.
    - apply elem_of_app. right. apply list_elem_of_fmap. exists q. split; [|done].
      unfold stale. unfold kept in Hq. by rewrite Hq. }
  split; [done|].
  rewrite log_function_unfold. unfold Log.LogUtil.OutputToLogFunc. run_monad.
  cbn [sFilterList sLogConnections set_connections].
  rewrite (filtered_false _ _ Hty).
  by destruct (broadcast_null (member_of sev) msg _
                 (set_connections (std_remove MoveAssign (sLogConnections s) conn).1 s)
                 Hnull) as [s' ->].
Qed.

Lemma broadcast_after_move_remove_fails_witness :
  ∃ s', Log.RemoveLogConnection MoveAssign (Some conn_a) state_ab = Ok tt s' ∧
        None ∈ sLogConnections s' ∧
        fault_of (log_function Error_ None None (Some "hello") s') = Some AssertionFailed.
Proof.
  apply (broadcast_after_move_remove_fails Error_ None (Some "hello") (Some conn_a)
           [conn_a; conn_b; conn_b'] 0 1 conn_a conn_b state_ab);
    first [discriminate | reflexivity | lia].
Defined.

(** ** Logging in a list with a NULL cell *)

Lemma broadcast_until_null (func : MemberLogFunc) (msg : c_str) (pre : list ILogConnection)
    (post : list ILogConnectionPtr) (s : LogState) :
  Log.LogUtil.broadcast func msg ((Some <$> pre) ++ None :: post) s
  = Crash AssertionFailed (add_calls ((λ c, mkDelivery c func msg) <$> pre) s).
Proof.
  revert s. induction pre as [|c pre IH]; intros s; simpl; run_monad.
  - by rewrite add_calls_nil.
  - rewrite IH. by rewrite add_calls_app.
Qed.

(** X7: an unfiltered broadcast over a list with a NULL cell calls the
    connections in front of the first NULL cell, in order, and then fails the
    assertion; the connections behind the NULL cell are not called. *)
Theorem broadcast_stops_at_null_cell (sev : Severity) (type msg : c_str)
    (pre : list ILogConnection) (post : list ILogConnectionPtr) (s : LogState) :
  (∀ ty, type = Some ty → ty ∉ sFilterList s) →
  sLogConnections s = (Some <$> pre) ++ None :: post →
  log_function sev type None msg s
  = Crash AssertionFailed (add_calls ((λ c, mkDelivery c (member_of sev) msg) <$> pre) s).
Proof.
  intros Hty Hv. rewrite log_function_unfold.
  unfold Log.LogUtil.OutputToLogFunc. run_monad.
  rewrite (filtered_false _ _ Hty), Hv. apply broadcast_until_null.
Qed.

Lemma broadcast_stops_at_null_cell_witness :
  log_function Debug_ (Some "physics") None (Some "hello") state_null
  = Crash AssertionFailed
      (add_calls [mkDelivery conn_a ILogConnection_LogDebug (Some "hello")] state_null).
Proof.
  apply (broadcast_stops_at_null_cell Debug_ (Some "physics") (Some "hello")
           [conn_a] [Some conn_b] state_null).
  - intros ty [= <-]. apply (bool_decide_unpack _). vm_compute. exact I.
  - reflexivity.
Defined.

Lemma find_from_null (name : string) (pre : list ILogConnection)
    (post : list ILogConnectionPtr) (s : LogState) :
  Forall (λ x, getConnectionName x ≠ name) pre →
  Log.LogUtil.find_from name ((Some <$> pre) ++ None :: post) s = Crash NullDereference s.
Proof.
  intros Hpre. induction Hpre as [|x pre Hx _ IH]; simpl; run_monad; [done|].
  apply String.eqb_neq in Hx. rewrite Hx. apply IH.
Qed.

(** X8: the search of a named call is not guarded by the assertion: an
    unfiltered call with a connectionName that no connection in front of the
    first NULL cell bears dereferences that NULL cell, and no connection is
    called. *)
Theorem named_call_dereferences_null_cell (sev : Severity) (type msg : c_str) (name : string)
    (pre : list ILogConnection) (post : list ILogConnectionPtr) (s : LogState) :
  (∀ ty, type = Some ty → ty ∉ sFilterList s) →
  sLogConnections s = (Some <$> pre) ++ None :: post →
  Forall (λ x, getConnectionName x ≠ name) pre →
  log_function sev type (Some name) msg s = Crash NullDereference s.
Proof.
  intros Hty Hv Hpre. rewrite log_function_unfold.
  unfold Log.LogUtil.OutputToLogFunc, Log.LogUtil.find. run_monad.
  rewrite (filtered_false _ _ Hty), Hv. by rewrite find_from_null.
Qed.

Lemma named_call_dereferences_null_cell_witness :
  log_function Message_ None (Some "b") (Some "hello") state_null
  = Crash NullDereference state_null.
Proof.
  apply (named_call_dereferences_null_cell Message_ None (Some "hello") "b"
           [conn_a] [Some conn_b] state_null).
  - discriminate.
  - reflexivity.
  - repeat constructor. discriminate.
Defined.

(** ** What a logging call can touch *)

Lemma broadcast_frame (func : MemberLogFunc) (msg : c_str) (v : list ILogConnectionPtr)
    (s : LogState) :
  ∃ ds, final_state (Log.LogUtil.broadcast func msg v s) = add_calls ds s ∧
        Forall (λ d, Some (d_conn d) ∈ v ∧ d_func d = func ∧ d_msg d = msg) ds ∧
        length ds ≤ length v.
Proof.
  revert s. induction v as [|[c|] v IH]; intros s; simpl; run_monad.
  - exists []. by rewrite add_calls_nil.
  - destruct (IH (add_calls [mkDelivery c func msg] s)) as (ds & Hf & Hall & Hlen).
    exists (mkDelivery c func msg :: ds). split; [|split].
    + rewrite add_calls_app in Hf.
      by destruct (Log.LogUtil.broadcast func msg v _).
    + constructor; [split; [apply list_elem_of_here | done]|].
      eapply Forall_impl; [exact Hall|]. intros d (Hin & ? & ?).
      split; [by apply list_elem_of_further | done].
    + simpl. lia.
  - exists []. rewrite add_calls_nil. split; [done|]. split; [constructor | simpl; lia].
Qed.

Lemma find_from_frame (name : string) (v : list ILogConnectionPtr) (s : LogState) :
  (∃ r, Log.LogUtil.find_from name v s = Ok r s ∧
        ∀ c, r = Some c → Some c ∈ v ∧ getConnectionName c = name)
  ∨ Log.LogUtil.find_from name v s = Crash NullDereference s.
Proof.
  induction v as [|[c|] v IH]; simpl; run_monad.
  - left. by exists None.
  - destruct (String.eqb (getConnectionName c) name) eqn:E.
    + left. exists (Some c). split; [done|]. intros c' [= <-].
      split; [apply list_elem_of_here | by apply String.eqb_eq].
    + destruct IH as [(r & -> & Hr)| -> ]; [left | by right].
      exists r. split; [done|]. intros c' Hc'. destruct (Hr c' Hc') as [Hin Hn].
      split; [by apply list_elem_of_further | done].
  - by right.
Qed.

(** X9: whatever the state, NULL cells included, and whether it returns or
    faults, a call of a logging function changes nothing but the record of
    member calls: connection list and filter list are as before, and every
    call it makes is on a connection of the list, through the member of the
    severity, with the message as given; there are at most as many calls as
    cells, and at most one, on a connection of that name, when a
    connectionName is given. *)
Theorem logging_calls_only_registered_connections (sev : Severity)
    (type connectionName msg : c_str) (s : LogState) :
  ∃ ds, final_state (log_function sev type connectionName msg s) = add_calls ds s ∧
    Forall (λ d, Some (d_conn d) ∈ sLogConnections s ∧
                 d_func d = member_of sev ∧ d_msg d = msg) ds ∧
    length ds ≤ length (sLogConnections s) ∧
    ∀ name, connectionName = Some name →
            length ds ≤ 1 ∧ Forall (λ d, getConnectionName (d_conn d) = name) ds.
Proof.
  rewrite log_function_unfold.
  unfold Log.LogUtil.OutputToLogFunc, Log.LogUtil.find. run_monad.
  destruct (Log.LogUtil.filtered _ _).
  { exists []. rewrite add_calls_nil. repeat split; try constructor; simpl; lia. }
  destruct connectionName as [name|]; cbv beta.
  - destruct (find_from_frame name (sLogConnections s) s) as [(r & -> & Hr)| -> ].
    + destruct r as [c|].
      * destruct (Hr c eq_refl) as [Hin Hn].
        exists [mkDelivery c (member_of sev) msg]. split; [done|].
        split; [by repeat constructor|]. split.
        { apply list_elem_of_lookup in Hin as [i Hi]. apply lookup_lt_Some in Hi.
          unfold ILogConnectionPtr in *. simpl. lia. }
        intros name' [= <-]. split; [done | by repeat constructor].
      * exists []. rewrite add_calls_nil. repeat split; try constructor; simpl; lia.
    + exists []. rewrite add_calls_nil. repeat split; try constructor; simpl; lia.
  - destruct (broadcast_frame (member_of sev) msg (sLogConnections s) s)
      as (ds & Hf & Hall & Hlen).
    exists ds. repeat split; try done.
Qed.

(** ** Registering connections *)

(** X10: a connection added under a name that no registered connection
    bears is the one an unfiltered call with that connectionName reaches:
    AddLogConnection(c) followed by such a call makes exactly one member
    call, on c. *)
Theorem added_connection_answers_to_its_name (sev : Severity) (type msg : c_str)
    (c : ILogConnection) (cs : list ILogConnection) (s : LogState) :
  (∀ ty, type = Some ty → ty ∉ sFilterList s) →
  sLogConnections s = Some <$> cs →
  Forall (λ x, getConnectionName x ≠ getConnectionName c) cs →
  (Log.AddLogConnection (Some c);;
   log_function sev type (Some (getConnectionName c)) msg) s
  = Ok tt (add_calls [mkDelivery c (member_of sev) msg]
             (set_connections (sLogConnections s ++ [Some c]) s)).
Proof.
  intros Hty Hcs Hfresh. rewrite log_function_unfold.
  unfold Log.AddLogConnection, Log.LogUtil.OutputToLogFunc, Log.LogUtil.find. run_monad.
  cbn [sFilterList sLogConnections set_connections].
  rewrite (filtered_false _ _ Hty), Hcs.
  by rewrite (find_from_first _ cs c []).
Qed.

Lemma added_connection_answers_to_its_name_witness :
  (Log.AddLogConnection (Some conn_c);;
   log_function Warning_ None (Some "c") (Some "hello")) state_ab
  = Ok tt (add_calls [mkDelivery conn_c ILogConnection_LogWarning (Some "hello")]
             (set_connections [Some conn_a; Some conn_b; Some conn_b'; Some conn_c]
                state_ab)).
Proof.
  apply (added_connection_answers_to_its_name Warning_ None (Some "hello") conn_c
           [conn_a; conn_b; conn_b'] state_ab).
  - discriminate.
  - reflexivity.
  - repeat constructor; discriminate.
Defined.

(** X11: AddLogConnection does not look for the connection in the list: a
    connection added twice sits in two cells, and an unfiltered broadcast
    calls it twice, after the connections registered before. *)
Theorem connection_added_twice_is_called_twice (sev : Severity) (type msg : c_str)
    (c : ILogConnection) (cs : list ILogConnection) (s : LogState) :
  (∀ ty, type = Some ty → ty ∉ sFilterList s) →
  sLogConnections s = Some <$> cs →
  (Log.AddLogConnection (Some c);; Log.AddLogConnection (Some c);;
   log_function sev type None msg) s
  = Ok tt (add_calls ((λ x, mkDelivery x (member_of sev) msg) <$> (cs ++ [c; c]))
             (set_connections (sLogConnections s ++ [Some c; Some c]) s)).
Proof.
  intros Hty Hcs. rewrite log_function_unfold.
  unfold Log.AddLogConnection, Log.LogUtil.OutputToLogFunc. run_monad.
  cbn [sFilterList sLogConnections set_connections].
  rewrite (filtered_false _ _ Hty), Hcs, <- app_assoc.
  change ((Some <$> cs) ++ [Some c] ++ [Some c]) with ((Some <$> cs) ++ (Some <$> [c; c])).
  rewrite <- fmap_app, broadcast_valid. by rewrite (fmap_app Some).
Qed.

Lemma connection_added_twice_is_called_twice_witness :
  (Log.AddLogConnection (Some conn_c);; Log.AddLogConnection (Some conn_c);;
   log_function Message_ None None (Some "hello")) state_a
  = Ok tt (add_calls
             [ mkDelivery conn_a ILogConnection_LogMsg (Some "hello");
               mkDelivery conn_c ILogConnection_LogMsg (Some "hello");
               mkDelivery conn_c ILogConnection_LogMsg (Some "hello") ]
             (set_connections [Some conn_a; Some conn_c; Some conn_c] state_a)).
Proof.
  apply (connection_added_twice_is_called_twice Message_ None (Some "hello") conn_c
           [conn_a] state_a); [discriminate | reflexivity].
Defined.

(** ** The filter list *)

Lemma filtered_same_members (type : c_str) (fl fl' : list string) :
  (∀ ty, ty ∈ fl ↔ ty ∈ fl') →
  Log.LogUtil.filtered type fl = Log.LogUtil.filtered type fl'.
Proof.
  intros H. destruct type as [ty|]; [|done].
  destruct (Log.LogUtil.filtered (Some ty) fl) eqn:E1,
           (Log.LogUtil.filtered (Some ty) fl') eqn:E2; try done.
  - apply filtered_Some, H, filtered_Some in E1. congruence.
  - apply filtered_Some, H, filtered_Some in E2. congruence.
Qed.

(** X12: only membership in the filter list counts: under two filter lists
    with the same members, in whatever order and with whatever repetitions,
    every logging call gives the same result. *)
Theorem filter_list_order_and_repeats_do_not_matter (sev : Severity)
    (type connectionName msg : c_str) (fl fl' : list string) (s : LogState) :
  (∀ ty, ty ∈ fl ↔ ty ∈ fl') →
  log_function sev type connectionName msg (set_filters fl s)
  = on_state (set_filters fl)
      (log_function sev type connectionName msg (set_filters fl' s)).
Proof.
  intros H. rewrite log_function_unfold.
  unfold Log.LogUtil.OutputToLogFunc, Log.LogUtil.find. run_monad.
  cbn [sFilterList set_filters]. rewrite !connections_set_filters.
  rewrite (filtered_same_members type fl fl' H).
  destruct (Log.LogUtil.filtered type fl'); [done|].
  destruct connectionName as [name|]; cbv beta.
  - rewrite !find_from_filters.
    destruct (Log.LogUtil.find_from name _ s) as [[c|] s'|e s']; reflexivity.
  - rewrite !broadcast_filters.
    destruct (Log.LogUtil.broadcast _ msg _ s) as [[] s'|e s']; reflexivity.
Qed.

Lemma filter_list_order_and_repeats_do_not_matter_witness :
  log_function Debug_ (Some "ai") None (Some "hello")
    (set_filters ["ai"; "render"] state_ab)
  = on_state (set_filters ["ai"; "render"])
      (log_function Debug_ (Some "ai") None (Some "hello")
         (set_filters ["render"; "ai"; "render"] state_ab)).
Proof.
  apply (filter_list_order_and_repeats_do_not_matter Debug_ (Some "ai") None (Some "hello")
           ["ai"; "render"] ["render"; "ai"; "render"] state_ab).
  intros ty. rewrite !elem_of_cons, !elem_of_nil. tauto.
Defined.

(** ** The size of the connection list *)

Lemma log_function_connections (sev : Severity) (type connectionName msg : c_str)
    (s : LogState) :
  sLogConnections (final_state (log_function sev type connectionName msg s))
  = sLogConnections s.
Proof.
  rewrite log_function_unfold.
  unfold Log.LogUtil.OutputToLogFunc, Log.LogUtil.find. run_monad.
  destruct (Log.LogUtil.filtered _ _); [done|].
  destruct connectionName as [name|]; cbv beta.
  - destruct (find_from_frame name (sLogConnections s) s) as [(r & -> & _)| ->];
      [by destruct r | done].
  - destruct (broadcast_frame (member_of sev) msg (sLogConnections s) s) as (ds & -> & _).
    done.
Qed.

Lemma run_call_keeps_cells (m : assign_mode) (c : Call) (s : LogState) :
  c ≠ CallShutdown →
  length (sLogConnections s) ≤ length (sLogConnections (final_state (run_call m c s))).
Proof.
  intros Hc. destruct c as [[c|]|conn|sev type cn msg| |flist|]; simpl; try done.
  - rewrite length_app. simpl. lia.
  - by rewrite std_remove_length.
  - by rewrite log_function_connections.
  - rewrite <- app_assoc, length_app. lia.
Qed.

(** X13: nothing but LogSystemShutdown ever shortens the connection list:
    through any sequence of other calls (RemoveLogConnection among them),
    run to its end or to a fault, the list has at least as many cells as it
    had. *)
Theorem only_shutdown_shortens_the_list (m : assign_mode) (cs : list Call) (s : LogState) :
  Forall (λ c, c ≠ CallShutdown) cs →
  length (sLogConnections s)
  ≤ length (sLogConnections (final_state (run_calls m cs s))).
Proof.
  intros Hcs. revert s. induction Hcs as [|c cs Hc _ IH]; intros s; simpl; [done|].
  pose proof (run_call_keeps_cells m c s Hc) as H1. run_monad.
  destruct (run_call m c s) as [[] s1|e s1]; simpl in *; [|done].
  specialize (IH s1). unfold ILogConnectionPtr in *. lia.
Qed.

Lemma only_shutdown_shortens_the_list_witness :
  3 ≤ length (sLogConnections
                (final_state
                   (run_calls MoveAssign
                      [ CallRemove (Some conn_a); CallRemove (Some conn_b);
                        CallAdd None; CallLog Error_ None None (Some "hello") ]
                      state_ab))).
Proof.
  apply (only_shutdown_shortens_the_list MoveAssign
           [ CallRemove (Some conn_a); CallRemove (Some conn_b);
             CallAdd None; CallLog Error_ None None (Some "hello") ]
           state_ab).
  repeat constructor; discriminate.
Defined.
